(** * MathOps: the cmake-library example of poltergohst

    A shallow embedding of [examples/cmake-library]:
    - [src/math_ops.c]  : [add], [multiply], [divide_safe];
    - [test/test_math.c]: the smoke test [main], which prints one line per call.

    C [int] is a 32-bit two's complement integer, carried by [Z] with the
    wrap-around written out.  C [double] is IEEE 754 binary64, carried by
    [spec_float] with [prec = 53] and [emax = 1024], rounding to nearest even
    (the default floating-point environment).  Every C function is a
    computation in a state monad over the [World] a C program can observe,
    here the standard output stream. *)

From Stdlib Require Import ZArith Lia Bool String Ascii List.
From Stdlib Require Import SpecFloat DecimalString.
From ExtLib Require Import Structures.Monad Structures.MonadState.
From ExtLib Require Import Data.Monads.StateMonad.
Import ListNotations.
Import MonadNotation.
Local Open Scope monad_scope.
Local Open Scope Z_scope.

(** ** C [int] *)
Module CInt.

Definition int_min : Z := - 2 ^ 31.
Definition int_max : Z := 2 ^ 31 - 1.
Definition modulus : Z := 2 ^ 32.

(** The values an [int] can hold. *)
Definition in_int (z : Z) : Prop := int_min <= z <= int_max.

(** The [int] with the same 32 low bits as [z]. *)
Definition wrap (z : Z) : Z := (z - int_min) mod modulus + int_min.

(** [a + b] and [a * b] at type [int].  A result that does not fit is
    reduced modulo [2 ^ 32], which is what the two's complement
    representation does natively (the C standard leaves it undefined). *)
Definition int_add (a b : Z) : Z := wrap (a + b).
Definition int_mul (a b : Z) : Z := wrap (a * b).

End CInt.

(** ** C [double] *)
Module CDouble.

Definition prec : Z := 53.
Definition emax : Z := 1024.

(** [spec_float] has one NaN: the sign, the quiet bit and the payload of a C
    NaN are not represented, so results are only ever classified as NaN,
    never compared with one. *)
Definition double : Type := spec_float.

(** A [spec_float] is a [double] when its mantissa and exponent are the
    canonical binary64 ones. *)
Definition is_double (x : double) : bool := valid_binary prec emax x.

Definition pos_zero : double := S754_zero false.
Definition neg_zero : double := S754_zero true.

(** [a / b] and [a == b] at type [double]. *)
Definition ddiv (a b : double) : double := SFdiv prec emax a b.
Definition deq (a b : double) : bool := SFeqb a b.

Definition is_zero (x : double) : bool :=
  match x with S754_zero _ => true | _ => false end.
Definition is_finite (x : double) : bool :=
  match x with S754_zero _ | S754_finite _ _ _ => true | _ => false end.

(** The decimal literal [m]e[k] ([m] a positive integer), rounded once. *)
Definition lit (m : positive) (k : Z) : double :=
  match k with
  | Zneg p => ddiv (S754_finite false m 0) (S754_finite false (10 ^ p) 0)
  | _ => binary_normalize prec emax (Zpos m * 10 ^ k) 0 false
  end.

(** The exact value of a finite double is [num / den]. *)
Definition num (x : double) : Z :=
  match x with
  | S754_finite s m e => (if s then -1 else 1) * Zpos m * 2 ^ Z.max e 0
  | _ => 0
  end.
Definition den (x : double) : Z :=
  match x with
  | S754_finite _ _ e => 2 ^ Z.max (- e) 0
  | _ => 1
  end.

Definition is_nan (x : double) : bool :=
  match x with S754_nan => true | _ => false end.
Definition is_infinite (x : double) : bool :=
  match x with S754_infinity _ => true | _ => false end.

(** The sign bit; the NaN of this model carries none. *)
Definition sign_bit (x : double) : option bool :=
  match x with
  | S754_zero s | S754_infinity s | S754_finite s _ _ => Some s
  | S754_nan => None
  end.

(** [- x] at type [double]. *)
Definition dopp (x : double) : double := SFopp x.

(** What aligning a mantissa to its exponent guarantees when rounding: a
    zero mantissa at the least exponent, or a mantissa canonical for its
    exponent. *)
Definition aligned (m e : Z) : Prop :=
  (m = 0 /\ e = emin prec emax) \/
  (0 < m /\ fexp prec emax (Zdigits2 m + e) = e).

End CDouble.

(** ** The observable state of a C program

    Only the standard output stream.  The floating-point environment is
    not part of it: the rounding mode is the default one and the exception
    flags are not recorded. *)
Record World : Type := mkWorld { stdout : string }.

(** C computations: a value and the world after the call. *)
Definition C : Type -> Type := state World.

#[global] Instance Monad_C : Monad C := Monad_state World.
#[global] Instance MonadState_C : MonadState World C := MonadState_state World.

Definition returns {A : Type} (m : C A) (w : World) : A := evalState m w.
Definition effect {A : Type} (m : C A) (w : World) : World := execState m w.

(** A procedure that only computes [v] from its arguments: it returns
    [v a b] in every world and leaves the world as it found it. *)
Definition computes {A B : Type} (f : A -> A -> C B) (v : A -> A -> B) : Prop :=
  forall (a b : A) (w : World), runState (f a b) w = (v a b, w).

(** ** math_ops.c *)
Module MathOps.
Import CInt CDouble.

Definition add (a b : Z) : C Z :=
  ret (int_add a b).

Definition multiply (a b : Z) : C Z :=
  ret (int_mul a b).

Definition divide_safe (a b : double) : C double :=
  if deq b pos_zero then
    ret pos_zero
  else
    ret (ddiv a b).

End MathOps.

(** ** The part of <stdio.h> the smoke test uses *)
Module Stdio.
Import CDouble.

Inductive arg : Type :=
| AInt (z : Z)
| ADouble (x : double).

Definition nl : string := String (ascii_of_nat 10) EmptyString.

(** [%d]: the decimal digits of an [int], with a minus sign when negative. *)
Definition show_int (z : Z) : string := NilZero.string_of_int (Z.to_int z).

(** The integer nearest to [n / d] ([0 <= n], [0 < d]), ties to even. *)
Definition round_div (n d : Z) : Z :=
  let q := n / d in
  let r := n mod d in
  match 2 * r ?= d with
  | Lt => q
  | Eq => if Z.even q then q else q + 1
  | Gt => q + 1
  end.

Definition show_hundredths (h : Z) : string :=
  let frac := h mod 100 in
  show_int (h / 100) ++ "." ++ (if frac <? 10 then "0" else "") ++ show_int frac.

(** [%.2f]: fixed notation with two digits after the point; the exact
    binary value is rounded to the nearest hundredth. *)
Definition show_fixed2 (x : double) : string :=
  match x with
  | S754_nan => "nan"
  | S754_infinity s => (if s then "-" else "") ++ "inf"
  | S754_zero s => (if s then "-" else "") ++ "0.00"
  | S754_finite s m e =>
      (if s then "-" else "") ++
      show_hundredths (round_div (100 * Zpos m * 2 ^ Z.max e 0) (2 ^ Z.max (- e) 0))
  end.

(** The conversions [%d] and [%.2f]; every other character is copied.  A
    conversion whose argument is missing or of the other type (undefined
    in C) prints nothing. *)
Fixpoint format (fmt : string) (args : list arg) : string :=
  match fmt with
  | EmptyString => EmptyString
  | String "%" (String "d" rest) =>
      match args with
      | AInt z :: args' => show_int z ++ format rest args'
      | _ => format rest args
      end
  | String "%" (String "." (String "2" (String "f" rest))) =>
      match args with
      | ADouble x :: args' => show_fixed2 x ++ format rest args'
      | _ => format rest args
      end
  | String c rest => String c (format rest args)
  end.

(** [printf] appends the formatted text to standard output and returns
    the number of characters written. *)
Definition printf (fmt : string) (args : list arg) : C Z :=
  w <- get ;;
  let out := format fmt args in
  put (mkWorld (stdout w ++ out)) ;;
  ret (Z.of_nat (String.length out)).

End Stdio.

(** ** test_math.c *)
Module TestMath.
Import CDouble Stdio.

Section Linked.
(** The functions declared in math_ops.h, as the linker provides them. *)
Variable add : Z -> Z -> C Z.
Variable multiply : Z -> Z -> C Z.
Variable divide_safe : double -> double -> C double.

Definition main : C Z :=
  printf ("Testing MathLib (built with Poltergeist)" ++ nl) [] ;;
  sum <- add 5 3 ;;
  printf ("add(5, 3) = %d" ++ nl) [AInt sum] ;;
  product <- multiply 4 7 ;;
  printf ("multiply(4, 7) = %d" ++ nl) [AInt product] ;;
  result <- divide_safe (lit 10 0) (lit 2 0) ;;
  printf ("divide_safe(10.0, 2.0) = %.2f" ++ nl) [ADouble result] ;;
  safe <- divide_safe (lit 5 0) pos_zero ;;
  printf ("divide_safe(5.0, 0.0) = %.2f (safe!)" ++ nl) [ADouble safe] ;;
  ret 0.

End Linked.

(** The test executable: [main] linked against math_ops.c. *)
Definition test_math : C Z :=
  main MathOps.add MathOps.multiply MathOps.divide_safe.

End TestMath.

(** * Properties *)

Import CInt CDouble Stdio MathOps TestMath.

(** ** Integer arithmetic at type [int] *)
Section WrapFacts.

Lemma modulus_pos : 0 < modulus.
Proof. reflexivity. Qed.

Lemma wrap_in_int (z : Z) : in_int (wrap z).
Proof.
  unfold in_int, wrap.
  pose proof (Z.mod_pos_bound (z - int_min) modulus modulus_pos) as Hb.
  unfold int_min, int_max, modulus in *. lia.
Qed.

Lemma wrap_small (z : Z) : in_int z -> wrap z = z.
Proof.
  unfold in_int, wrap. intros Hz.
  rewrite Z.mod_small; unfold int_min, int_max, modulus in *; lia.
Qed.

Lemma wrap_congruent (z : Z) : exists k : Z, wrap z = z + k * modulus.
Proof.
  exists (- ((z - int_min) / modulus)). unfold wrap.
  pose proof (Z.div_mod (z - int_min) modulus) as Hd.
  unfold modulus in *. lia.
Qed.

(** [wrap z] is the only [int] congruent to [z] modulo [2 ^ 32]. *)
Lemma wrap_unique (z r k : Z) : in_int r -> r = z + k * modulus -> r = wrap z.
Proof.
  intros Hr Hk. destruct (wrap_congruent z) as [k' Hk'].
  pose proof (wrap_in_int z) as Hw.
  unfold in_int, int_min, int_max, modulus in *. lia.
Qed.

End WrapFacts.


(** ** [add] and [multiply] *)

Example add_wraps_at_int_max :
  returns (add int_max 1) (mkWorld "") = int_min.
Proof. reflexivity. Qed.

Example multiply_wraps :
  returns (multiply 65536 65536) (mkWorld "") = 0.
Proof. reflexivity. Qed.

(** C3. [add a b] returns the sum [a + b]: exactly when the sum is an [int],
    and otherwise the [int] congruent to it modulo [2 ^ 32], as the 32-bit
    two's complement representation gives; in particular [add 5 3] is [8]. *)
Theorem add_returns_sum (a b : Z) (w : World) :
  (in_int (a + b) -> returns (add a b) w = a + b) /\
  in_int (returns (add a b) w) /\
  (exists k : Z, returns (add a b) w = a + b + k * modulus) /\
  returns (add 5 3) w = 8.
Proof.
  unfold returns, add; cbn. unfold int_add. split; [| split; [| split]].
  - apply wrap_small.
  - apply wrap_in_int.
  - apply wrap_congruent.
  - reflexivity.
Qed.

Lemma add_returns_sum_witness :
  in_int (2147483640 + 7) /\
  returns (add 2147483640 7) (mkWorld "") = 2147483640 + 7.
Proof.
  split.
  - unfold in_int, int_min, int_max. lia.
  - apply (add_returns_sum 2147483640 7 (mkWorld "")).
    unfold in_int, int_min, int_max. lia.
Defined.

(** C4. [multiply a b] returns the product [a * b]: exactly when the product
    is an [int], and otherwise the [int] congruent to it modulo [2 ^ 32];
    in particular [multiply 4 7] is [28]. *)
Theorem multiply_returns_product (a b : Z) (w : World) :
  (in_int (a * b) -> returns (multiply a b) w = a * b) /\
  in_int (returns (multiply a b) w) /\
  (exists k : Z, returns (multiply a b) w = a * b + k * modulus) /\
  returns (multiply 4 7) w = 28.
Proof.
  unfold returns, multiply; cbn. unfold int_mul. split; [| split; [| split]].
  - apply wrap_small.
  - apply wrap_in_int.
  - apply wrap_congruent.
  - reflexivity.
Qed.

Lemma multiply_returns_product_witness :
  in_int (46340 * 46341) /\
  returns (multiply 46340 46341) (mkWorld "") = 46340 * 46341.
Proof.
  split.
  - unfold in_int, int_min, int_max. lia.
  - apply (multiply_returns_product 46340 46341 (mkWorld "")).
    unfold in_int, int_min, int_max. lia.
Defined.

(** C5. [add] is commutative: [add a b] and [add b a] return the same
    [int], overflow included. *)
Theorem add_comm (a b : Z) (w : World) :
  returns (add a b) w = returns (add b a) w.
Proof.
  unfold returns, add; cbn. unfold int_add. now rewrite Z.add_comm.
Qed.

(** C6. [multiply] is commutative: [multiply a b] and [multiply b a] return
    the same [int], overflow included. *)
Theorem multiply_comm (a b : Z) (w : World) :
  returns (multiply a b) w = returns (multiply b a) w.
Proof.
  unfold returns, multiply; cbn. unfold int_mul. now rewrite Z.mul_comm.
Qed.

(** ** Doubles *)
Section DoubleFacts.

(** The guard [b == 0.0] holds exactly for the two zeros. *)
Lemma deq_pos_zero (b : double) : deq b pos_zero = is_zero b.
Proof. destruct b as [s | s | | s m e]; try destruct s; reflexivity. Qed.

(** Dividing by a zero never gives a finite double. *)
Lemma ddiv_by_zero_not_finite (a : double) (s : bool) :
  is_finite (ddiv a (S754_zero s)) = false.
Proof. destruct a; reflexivity. Qed.

(** The literals of the smoke test are binary64 values, and exact. *)
Lemma lit_exact_10_2_5 :
  (is_double (lit 10 0) = true /\ num (lit 10 0) = 10 * den (lit 10 0)) /\
  (is_double (lit 2 0) = true /\ num (lit 2 0) = 2 * den (lit 2 0)) /\
  (is_double (lit 5 0) = true /\ num (lit 5 0) = 5 * den (lit 5 0)).
Proof. vm_compute. repeat split. Qed.

(** [1.0e308] and [1.0e-308] are binary64 values within half a unit in
    the last place ([2 ^ 971] and [2 ^ -1074]) of the decimal they name. *)
Lemma lit_1e308_nearest :
  is_double (lit 1 308) = true /\
  lit 1 308 = S754_finite false 5010420900022432 971 /\
  2 * Z.abs (num (lit 1 308) - 10 ^ 308) <= 2 ^ 971.
Proof. vm_compute. repeat split; discriminate. Qed.

Lemma lit_1em308_nearest :
  is_double (lit 1 (-308)) = true /\
  lit 1 (-308) = S754_finite false 2024022533073106 (-1074) /\
  den (lit 1 (-308)) = 2 ^ 1074 /\
  2 * Z.abs (num (lit 1 (-308)) * 10 ^ 308 - den (lit 1 (-308))) <= 10 ^ 308.
Proof. vm_compute. repeat split; discriminate. Qed.

End DoubleFacts.

(** ** [divide_safe] *)

(** C1. For every double [a] and every nonzero double [b], [divide_safe a b]
    returns the binary64 quotient [a / b]; in particular
    [divide_safe 10.0 2.0] is [5.0]. *)
Theorem divide_safe_nonzero (a b : double) (w : World) :
  (is_zero b = false -> returns (divide_safe a b) w = ddiv a b) /\
  returns (divide_safe (lit 10 0) (lit 2 0)) w = lit 5 0.
Proof.
  split; [| reflexivity].
  intros Hb. unfold divide_safe. rewrite deq_pos_zero, Hb. reflexivity.
Qed.

Lemma divide_safe_nonzero_witness :
  is_zero (lit 4 0) = false /\
  returns (divide_safe (lit 1 0) (lit 4 0)) (mkWorld "") = ddiv (lit 1 0) (lit 4 0).
Proof.
  split.
  - reflexivity.
  - apply (divide_safe_nonzero (lit 1 0) (lit 4 0) (mkWorld "")). reflexivity.
Defined.

(** C2. For every double [a], [divide_safe a 0.0] returns the fallback [0.0],
    a finite double, and leaves the world as it was; in particular
    [divide_safe 5.0 0.0] is [0.0]. *)
Theorem divide_safe_zero (a : double) (w : World) :
  runState (divide_safe a pos_zero) w = (pos_zero, w) /\
  is_finite (returns (divide_safe a pos_zero) w) = true /\
  returns (divide_safe (lit 5 0) pos_zero) w = pos_zero.
Proof. repeat split. Qed.

(** C9. For every double [a], [divide_safe a (-0.0)] returns the fallback
    [0.0]: the guard compares with IEEE equality, under which [-0.0 == 0.0],
    so the division, which would not give a finite double, is not done. *)
Theorem divide_safe_neg_zero (a : double) (w : World) :
  deq neg_zero pos_zero = true /\
  returns (divide_safe a neg_zero) w = pos_zero /\
  is_finite (ddiv a neg_zero) = false.
Proof.
  split; [reflexivity |]. split; [reflexivity |].
  apply ddiv_by_zero_not_finite.
Qed.

(** C10. The guard does not exclude every result that is not finite: some
    doubles [a] and [b] with [b == 0.0] false make [divide_safe a b] a NaN or
    an infinity.  A NaN denominator gives NaN for every [a], and
    [1.0e308 / 1.0e-308], both finite and nonzero, overflows to [+inf]. *)
Theorem divide_safe_not_always_finite (w : World) :
  (exists a b : double,
      is_double a = true /\ is_double b = true /\
      deq b pos_zero = false /\
      is_finite (returns (divide_safe a b) w) = false) /\
  (deq S754_nan pos_zero = false /\
   forall a : double, returns (divide_safe a S754_nan) w = S754_nan) /\
  (is_finite (lit 1 308) = true /\ is_finite (lit 1 (-308)) = true /\
   deq (lit 1 (-308)) pos_zero = false /\
   returns (divide_safe (lit 1 308) (lit 1 (-308))) w = S754_infinity false).
Proof.
  split; [| split].
  - exists (lit 1 308), (lit 1 (-308)). vm_compute. repeat split.
  - split; [reflexivity |]. intros a. destruct a; reflexivity.
  - vm_compute. repeat split.
Qed.

(** ** The smoke test *)

(** [%.2f] rounds the exact binary value: [0.125] is a tie and goes to the
    even hundredth, [0.995] lies just below its decimal and goes down. *)
Example show_fixed2_rounding :
  show_fixed2 (lit 125 (-3)) = "0.12"%string /\
  show_fixed2 (lit 375 (-3)) = "0.38"%string /\
  show_fixed2 (lit 995 (-3)) = "0.99"%string /\
  show_fixed2 (SFopp (lit 25 (-1))) = "-2.50"%string.
Proof. vm_compute. repeat split. Qed.

Example format_two_conversions :
  format "%d / %d = %.2f" [AInt 7; AInt (-2); ADouble (SFopp (lit 35 (-1)))]
  = "7 / -2 = -3.50"%string.
Proof. vm_compute. reflexivity. Qed.

Section MainFacts.

Lemma append_assoc (s1 s2 s3 : string) :
  ((s1 ++ s2) ++ s3 = s1 ++ (s2 ++ s3))%string.
Proof. induction s1 as [| c s1 IH]; cbn; [| rewrite IH]; reflexivity. Qed.

Lemma printf_run (fmt : string) (args : list arg) (w : World) :
  runState (printf fmt args) w =
  (Z.of_nat (String.length (format fmt args)),
   mkWorld (stdout w ++ format fmt args)).
Proof. reflexivity. Qed.

(** The value each function of math_ops.c returns. *)
Lemma math_ops_compute :
  computes add int_add /\
  computes multiply int_mul /\
  computes divide_safe (fun a b => returns (divide_safe a b) (mkWorld "")).
Proof.
  split; [| split]; intros a b w; try reflexivity.
  unfold returns, divide_safe. destruct (deq b pos_zero); reflexivity.
Qed.

End MainFacts.

(** C7. [main] returns exit code 0 whatever the three functions it is linked
    against do.  When they only compute values [vadd], [vmul] and [vdiv],
    [main] appends to standard output the banner and then one line for each
    of [add(5, 3)], [multiply(4, 7)], [divide_safe(10.0, 2.0)] and
    [divide_safe(5.0, 0.0)], in that order, and nothing else. *)
Theorem main_exit_code_and_output
    (fadd fmul : Z -> Z -> C Z) (fdiv : double -> double -> C double)
    (w : World) :
  returns (main fadd fmul fdiv) w = 0 /\
  forall (vadd vmul : Z -> Z -> Z) (vdiv : double -> double -> double),
    computes fadd vadd -> computes fmul vmul -> computes fdiv vdiv ->
    stdout (effect (main fadd fmul fdiv) w) =
    (stdout w ++
     "Testing MathLib (built with Poltergeist)" ++ nl ++
     "add(5, 3) = " ++ show_int (vadd 5 3) ++ nl ++
     "multiply(4, 7) = " ++ show_int (vmul 4 7) ++ nl ++
     "divide_safe(10.0, 2.0) = " ++ show_fixed2 (vdiv (lit 10 0) (lit 2 0)) ++ nl ++
     "divide_safe(5.0, 0.0) = " ++ show_fixed2 (vdiv (lit 5 0) pos_zero) ++
     " (safe!)" ++ nl)%string.
Proof.
  split.
  - unfold returns, evalState, main. cbn.
    repeat match goal with
           | |- context [runState ?m ?s] => destruct (runState m s)
           end.
    reflexivity.
  - intros vadd vmul vdiv Hadd Hmul Hdiv.
    unfold effect, execState, main. cbn.
    rewrite Hadd. cbn. rewrite Hmul. cbn. rewrite Hdiv. cbn. rewrite Hdiv. cbn.
    repeat (rewrite !append_assoc; cbn [append]). reflexivity.
Qed.

Lemma main_exit_code_and_output_witness :
  (computes add int_add /\
   computes multiply int_mul /\
   computes divide_safe (fun a b => returns (divide_safe a b) (mkWorld ""))) /\
  returns test_math (mkWorld "") = 0 /\
  stdout (effect test_math (mkWorld "")) =
  ("Testing MathLib (built with Poltergeist)" ++ nl ++
   "add(5, 3) = 8" ++ nl ++
   "multiply(4, 7) = 28" ++ nl ++
   "divide_safe(10.0, 2.0) = 5.00" ++ nl ++
   "divide_safe(5.0, 0.0) = 0.00 (safe!)" ++ nl)%string.
Proof.
  split; [exact math_ops_compute |].
  destruct math_ops_compute as [Hadd [Hmul Hdiv]].
  destruct (main_exit_code_and_output add multiply divide_safe (mkWorld ""))
    as [Hexit Hout].
  split; [exact Hexit |].
  exact (Hout _ _ _ Hadd Hmul Hdiv).
Defined.

(** * Further properties of math_ops.c *)

(** ** The ring of [int]s *)
Section IntRing.

(** Integers that differ by a multiple of [2 ^ 32] wrap to the same [int]. *)
Lemma wrap_congr (x y k : Z) : x = y + k * modulus -> wrap x = wrap y.
Proof.
  intros Hxy. destruct (wrap_congruent x) as [k' Hk'].
  apply (wrap_unique y (wrap x) (k + k')); [apply wrap_in_int |].
  rewrite Hk', Hxy. ring.
Qed.

Lemma wrap_add_l (x y : Z) : wrap (wrap x + y) = wrap (x + y).
Proof.
  destruct (wrap_congruent x) as [k Hk].
  apply (wrap_congr _ _ k). rewrite Hk. ring.
Qed.

Lemma wrap_add_r (x y : Z) : wrap (x + wrap y) = wrap (x + y).
Proof. rewrite Z.add_comm, wrap_add_l. f_equal. ring. Qed.

Lemma wrap_mul_l (x y : Z) : wrap (wrap x * y) = wrap (x * y).
Proof.
  destruct (wrap_congruent x) as [k Hk].
  apply (wrap_congr _ _ (k * y)). rewrite Hk. ring.
Qed.

Lemma wrap_mul_r (x y : Z) : wrap (x * wrap y) = wrap (x * y).
Proof. rewrite Z.mul_comm, wrap_mul_l. f_equal. ring. Qed.

(** An odd factor does not help a product to be a multiple of [2 ^ n]. *)
Lemma odd_mul_divide_pow2 (a : Z) (n : nat) :
  Z.odd a = true ->
  forall d : Z, (2 ^ Z.of_nat n | a * d) -> (2 ^ Z.of_nat n | d).
Proof.
  intros Ha. induction n as [| n IH]; intros d [q Hq].
  - exists d. cbn. ring.
  - rewrite Nat2Z.inj_succ, Z.pow_succ_r in * by lia.
    assert (Hd : Z.even d = true).
    { assert (He : Z.even (a * d) = true)
        by (rewrite Hq, Z.even_mul, Z.even_mul; cbn; apply orb_true_r).
      rewrite Z.even_mul, <- Z.negb_odd, Ha in He. exact He. }
    apply Z.even_spec in Hd. destruct Hd as [h Hh]. subst d.
    destruct (IH h) as [q' Hq']; [exists q; lia |].
    exists q'. lia.
Qed.

(** Two [int]s that wrap alike are equal. *)
Lemma wrap_inj (x y : Z) : in_int x -> in_int y -> wrap x = wrap y -> x = y.
Proof. intros Hx Hy. rewrite !wrap_small by assumption. trivial. Qed.

End IntRing.

(** X1. [add] is associative, overflow of either intermediate sum
    included: [add(add(a, b), c)] and [add(a, add(b, c))] return the same
    [int]. *)
Theorem add_assoc (a b c : Z) (w : World) :
  returns (s <- add a b ;; add s c) w = returns (t <- add b c ;; add a t) w.
Proof.
  unfold returns, add; cbn. unfold int_add.
  rewrite wrap_add_l, wrap_add_r. f_equal. ring.
Qed.

(** X2. [multiply] is associative, overflow of either intermediate product
    included. *)
Theorem multiply_assoc (a b c : Z) (w : World) :
  returns (p <- multiply a b ;; multiply p c) w =
  returns (q <- multiply b c ;; multiply a q) w.
Proof.
  unfold returns, multiply; cbn. unfold int_mul.
  rewrite wrap_mul_l, wrap_mul_r. f_equal. ring.
Qed.

(** X3. [multiply] distributes over [add]: [multiply(a, add(b, c))] returns
    what [add(multiply(a, b), multiply(a, c))] returns, whatever overflows
    on the way. *)
Theorem multiply_add_distr (a b c : Z) (w : World) :
  returns (s <- add b c ;; multiply a s) w =
  returns (p <- multiply a b ;; q <- multiply a c ;; add p q) w.
Proof.
  unfold returns, add, multiply; cbn. unfold int_add, int_mul.
  rewrite wrap_mul_r, wrap_add_l, wrap_add_r. f_equal. ring.
Qed.

(** X4. On [int] arguments, [0] is neutral for [add], [1] is neutral for
    [multiply] and [0] absorbs in [multiply]. *)
Theorem add_multiply_neutral (a : Z) (w : World) :
  in_int a ->
  returns (add a 0) w = a /\
  returns (multiply a 1) w = a /\
  returns (multiply a 0) w = 0.
Proof.
  intros Ha. unfold returns, add, multiply; cbn. unfold int_add, int_mul.
  rewrite Z.add_0_r, Z.mul_1_r, Z.mul_0_r, (wrap_small a Ha).
  repeat split.
Qed.

Lemma add_multiply_neutral_witness :
  in_int (-7) /\
  (returns (add (-7) 0) (mkWorld "") = -7 /\
   returns (multiply (-7) 1) (mkWorld "") = -7 /\
   returns (multiply (-7) 0) (mkWorld "") = 0).
Proof.
  assert (H : in_int (-7)) by (unfold in_int, int_min, int_max; lia).
  split; [exact H | exact (add_multiply_neutral (-7) (mkWorld "") H)].
Defined.

(** X5. For [int] arguments, [add] returns the mathematical sum exactly when
    the sum is an [int].  A sum above [int_max] comes back [2 ^ 32] lower,
    hence negative; a sum below [int_min] comes back [2 ^ 32] higher, hence
    non-negative. *)
Theorem add_overflow (a b : Z) (w : World) :
  in_int a -> in_int b ->
  (returns (add a b) w = a + b <-> in_int (a + b)) /\
  (int_max < a + b ->
   returns (add a b) w = a + b - modulus /\ returns (add a b) w < 0) /\
  (a + b < int_min ->
   returns (add a b) w = a + b + modulus /\ 0 <= returns (add a b) w).
Proof.
  intros Ha Hb. unfold returns, add; cbn. unfold int_add.
  pose proof (wrap_in_int (a + b)) as Hr.
  split; [split |].
  - intros E. rewrite <- E. exact Hr.
  - apply wrap_small.
  - split; intros Hov.
    + assert (E : wrap (a + b) = a + b - modulus).
      { symmetry. apply (wrap_unique _ _ (-1)); [| ring].
        unfold in_int, int_min, int_max, modulus in *. lia. }
      rewrite E. unfold in_int, int_min, int_max, modulus in *. lia.
    + assert (E : wrap (a + b) = a + b + modulus).
      { symmetry. apply (wrap_unique _ _ 1); [| ring].
        unfold in_int, int_min, int_max, modulus in *. lia. }
      rewrite E. unfold in_int, int_min, int_max, modulus in *. lia.
Qed.

Lemma add_overflow_witness :
  (in_int 2147483647 /\ in_int 1 /\ int_max < 2147483647 + 1) /\
  returns (add 2147483647 1) (mkWorld "") = 2147483647 + 1 - modulus.
Proof.
  assert (Ha : in_int 2147483647) by (unfold in_int, int_min, int_max; lia).
  assert (Hb : in_int 1) by (unfold in_int, int_min, int_max; lia).
  assert (Hov : int_max < 2147483647 + 1) by (unfold int_max; lia).
  split; [split; [exact Ha | split; [exact Hb | exact Hov]] |].
  exact (proj1 (proj1 (proj2 (add_overflow 2147483647 1 (mkWorld "") Ha Hb)) Hov)).
Defined.

(** X6. [add] can be cancelled: if [add(a, b)] and [add(a, c)] return the
    same [int] for [int]s [b] and [c], then [b = c], even when the sums
    overflow. *)
Theorem add_cancel_l (a b c : Z) (w : World) :
  in_int b -> in_int c ->
  returns (add a b) w = returns (add a c) w -> b = c.
Proof.
  intros Hb Hc. unfold returns, add; cbn. unfold int_add. intros E.
  destruct (wrap_congruent (a + b)) as [k Hk].
  destruct (wrap_congruent (a + c)) as [k' Hk'].
  unfold in_int, int_min, int_max, modulus in *. lia.
Qed.

Lemma add_cancel_l_witness :
  (in_int 5 /\ in_int 5 /\
   returns (add 2147483647 5) (mkWorld "") =
   returns (add 2147483647 5) (mkWorld "")) /\ 5 = 5.
Proof.
  assert (H : in_int 5) by (unfold in_int, int_min, int_max; lia).
  split; [split; [exact H | split; [exact H | reflexivity]] |].
  exact (add_cancel_l 2147483647 5 5 (mkWorld "") H H eq_refl).
Defined.

(** X7. [multiply(a, -1)] is the additive inverse of [a] for every [int],
    [int_min] included: [add(a, multiply(a, -1))] returns [0].  It is the
    mathematical [- a] except at [int_min], which it returns unchanged. *)
Theorem multiply_minus_one (a : Z) (w : World) :
  in_int a ->
  returns (n <- multiply a (-1) ;; add a n) w = 0 /\
  (a <> int_min -> returns (multiply a (-1)) w = - a) /\
  returns (multiply int_min (-1)) w = int_min.
Proof.
  intros Ha. unfold returns, add, multiply; cbn. unfold int_add, int_mul.
  split; [| split].
  - rewrite wrap_add_r. replace (a + a * -1) with 0 by ring. reflexivity.
  - intros Hmin. rewrite wrap_small;
      unfold in_int, int_min, int_max in *; lia.
  - reflexivity.
Qed.

Lemma multiply_minus_one_witness :
  (in_int 12 /\ 12 <> int_min) /\ returns (multiply 12 (-1)) (mkWorld "") = - 12.
Proof.
  assert (H : in_int 12) by (unfold in_int, int_min, int_max; lia).
  assert (N : 12 <> int_min) by (unfold int_min; lia).
  split; [split; assumption |].
  exact (proj1 (proj2 (multiply_minus_one 12 (mkWorld "") H)) N).
Defined.

(** X8. Doubling by [multiply] and by [add] agree: [multiply(a, 2)] returns
    what [add(a, a)] returns, overflow included. *)
Theorem multiply_two_add (a : Z) (w : World) :
  returns (multiply a 2) w = returns (add a a) w.
Proof.
  unfold returns, add, multiply; cbn. unfold int_add, int_mul.
  f_equal. ring.
Qed.

(** X9. [multiply] by an odd [int] is injective on [int]s, overflow
    included; [multiply] by an even one is not: it sends [int_min] and [0]
    to the same result. *)
Theorem multiply_odd_injective (a b c : Z) (w : World) :
  (Z.odd a = true -> in_int b -> in_int c ->
   returns (multiply a b) w = returns (multiply a c) w -> b = c) /\
  (Z.even a = true ->
   returns (multiply a int_min) w = returns (multiply a 0) w).
Proof.
  unfold returns, multiply; cbn. unfold int_mul. split.
  - intros Ha Hb Hc E.
    destruct (wrap_congruent (a * b)) as [k Hk].
    destruct (wrap_congruent (a * c)) as [k' Hk'].
    assert (Hdiv : (modulus | a * (b - c))).
    { exists (k' - k). lia. }
    destruct (odd_mul_divide_pow2 a 32 Ha (b - c) Hdiv) as [q Hq].
    change (2 ^ Z.of_nat 32) with modulus in Hq.
    unfold in_int, int_min, int_max, modulus in *. lia.
  - intros Ha. apply Z.even_spec in Ha. destruct Ha as [h Hh].
    apply (wrap_congr _ _ (- h)). unfold int_min, modulus. lia.
Qed.

Lemma multiply_odd_injective_witness :
  (Z.odd 3 = true /\ in_int 7 /\ in_int 7 /\
   returns (multiply 3 7) (mkWorld "") = returns (multiply 3 7) (mkWorld "")) /\
  7 = 7.
Proof.
  assert (H : in_int 7) by (unfold in_int, int_min, int_max; lia).
  split; [split; [reflexivity | split; [exact H | split; [exact H | reflexivity]]] |].
  exact (proj1 (multiply_odd_injective 3 7 7 (mkWorld "")) eq_refl H H eq_refl).
Defined.

(** ** Rounding never invents a NaN *)
Section RoundFacts.

Lemma shr_1_nonneg (mrs : shr_record) :
  0 <= shr_m mrs -> 0 <= shr_m (shr_1 mrs).
Proof.
  destruct mrs as [m r s]. cbn. intros Hm.
  destruct m as [| [p | p |] | p]; cbn; lia.
Qed.

Lemma iter_shr_1_nonneg (p : positive) :
  forall mrs, 0 <= shr_m mrs -> 0 <= shr_m (iter_pos shr_1 p mrs).
Proof.
  induction p as [p IH | p IH |]; intros mrs Hm; cbn.
  - apply IH, IH, shr_1_nonneg, Hm.
  - apply IH, IH, Hm.
  - apply shr_1_nonneg, Hm.
Qed.

Lemma shr_nonneg (mrs : shr_record) (e n : Z) :
  0 <= shr_m mrs -> 0 <= shr_m (fst (shr mrs e n)).
Proof.
  intros Hm. destruct n; cbn; try assumption.
  apply iter_shr_1_nonneg, Hm.
Qed.

Lemma shr_fexp_nonneg (m e : Z) (l : location) :
  0 <= m -> 0 <= shr_m (fst (shr_fexp prec emax m e l)).
Proof.
  intros Hm. unfold shr_fexp. apply shr_nonneg.
  destruct l as [| []]; exact Hm.
Qed.

Lemma round_nearest_even_nonneg (m : Z) (l : location) :
  0 <= m -> 0 <= round_nearest_even m l.
Proof.
  intros Hm. destruct l as [| []]; cbn; try lia.
  destruct (Z.even m); lia.
Qed.

(** Rounding a non-negative mantissa gives a zero, a finite double or an
    infinity, of the sign asked for. *)
Lemma binary_round_aux_sign (s : bool) (m e : Z) (l : location) :
  0 <= m -> sign_bit (binary_round_aux prec emax s m e l) = Some s.
Proof.
  intros Hm. unfold binary_round_aux.
  pose proof (shr_fexp_nonneg m e l Hm) as H1.
  destruct (shr_fexp prec emax m e l) as [mrs' e']. cbn [fst] in H1.
  pose proof (shr_fexp_nonneg _ e' loc_Exact
                (round_nearest_even_nonneg _ (loc_of_shr_record mrs') H1)) as H2.
  destruct (shr_fexp prec emax _ e' loc_Exact) as [mrs'' e'']. cbn [fst] in H2.
  destruct (shr_m mrs'') as [| p | p]; [reflexivity | | lia].
  destruct (e'' <=? emax - prec); reflexivity.
Qed.

Lemma SFdiv_core_binary_nonneg (mx my : positive) (ex ey : Z) :
  0 <= fst (fst (SFdiv_core_binary prec emax (Zpos mx) ex (Zpos my) ey)).
Proof.
  unfold SFdiv_core_binary.
  set (s := ex - ey - _).
  set (m' := match s with Z0 => Zpos mx | Zpos _ => Z.shiftl (Zpos mx) s | Zneg _ => 0 end).
  assert (Hm' : 0 <= m').
  { subst m'. destruct s; try lia. apply Z.shiftl_nonneg. lia. }
  pose proof (Z.div_pos m' (Zpos my) Hm' eq_refl) as Hq.
  unfold Z.div in Hq. destruct (Z.div_eucl m' (Zpos my)) as [q r]. exact Hq.
Qed.

(** The quotient of two finite nonzero doubles carries the exclusive or of
    their signs, whether it is finite, underflows to zero or overflows. *)
Lemma ddiv_finite_sign (sx sy : bool) (mx my : positive) (ex ey : Z) :
  sign_bit (ddiv (S754_finite sx mx ex) (S754_finite sy my ey)) =
  Some (xorb sx sy).
Proof.
  unfold ddiv, SFdiv.
  pose proof (SFdiv_core_binary_nonneg mx my ex ey) as Hq.
  destruct (SFdiv_core_binary prec emax (Zpos mx) ex (Zpos my) ey) as [[mz ez] lz].
  apply binary_round_aux_sign. exact Hq.
Qed.

End RoundFacts.

(** ** More on [divide_safe] *)
Section DivideFacts.

Lemma divide_safe_run (a b : double) (w : World) :
  runState (divide_safe a b) w =
  (if is_zero b then pos_zero else ddiv a b, w).
Proof.
  unfold divide_safe. rewrite deq_pos_zero. destruct (is_zero b); reflexivity.
Qed.

Lemma divide_safe_returns (a b : double) (w : World) :
  returns (divide_safe a b) w = if is_zero b then pos_zero else ddiv a b.
Proof. unfold returns, evalState. rewrite divide_safe_run. reflexivity. Qed.

Lemma sign_bit_not_nan (x : double) (s : bool) :
  sign_bit x = Some s -> is_nan x = false.
Proof. destruct x; [reflexivity | reflexivity | discriminate | reflexivity]. Qed.

(** Negation goes through rounding. *)
Lemma binary_round_aux_opp (s : bool) (m e : Z) (l : location) :
  SFopp (binary_round_aux prec emax s m e l) =
  binary_round_aux prec emax (negb s) m e l.
Proof.
  unfold binary_round_aux.
  destruct (shr_fexp prec emax m e l) as [mrs' e'].
  destruct (shr_fexp prec emax _ e' loc_Exact) as [mrs'' e''].
  destruct (shr_m mrs''); [reflexivity | | reflexivity].
  destruct (e'' <=? emax - prec); reflexivity.
Qed.

(** Negation goes through division.  Where the quotient is a NaN, both
    sides are the one NaN of the model and nothing is said about its sign. *)
Lemma ddiv_opp_l (a b : double) : ddiv (dopp a) b = dopp (ddiv a b).
Proof.
  unfold ddiv, dopp.
  destruct a as [sa | sa | | sa ma ea], b as [sb | sb | | sb mb eb];
    cbn [SFdiv SFopp]; try reflexivity; try (destruct sa, sb; reflexivity).
  destruct (SFdiv_core_binary prec emax (Zpos ma) ea (Zpos mb) eb) as [[mz ez] lz].
  rewrite binary_round_aux_opp. destruct sa, sb; reflexivity.
Qed.

Lemma ddiv_opp_r (a b : double) : ddiv a (dopp b) = dopp (ddiv a b).
Proof.
  unfold ddiv, dopp.
  destruct a as [sa | sa | | sa ma ea], b as [sb | sb | | sb mb eb];
    cbn [SFdiv SFopp]; try reflexivity; try (destruct sa, sb; reflexivity).
  destruct (SFdiv_core_binary prec emax (Zpos ma) ea (Zpos mb) eb) as [[mz ez] lz].
  rewrite binary_round_aux_opp. destruct sa, sb; reflexivity.
Qed.

End DivideFacts.

(** X10. [divide_safe] returns a NaN exactly when the denominator is not a
    zero and either an operand is a NaN or both are infinities.  So finite
    operands never give a NaN, and a zero denominator hides a NaN
    numerator behind the fallback. *)
Theorem divide_safe_nan_iff (a b : double) (w : World) :
  is_nan (returns (divide_safe a b) w) =
  negb (is_zero b) && (is_nan a || is_nan b || (is_infinite a && is_infinite b)).
Proof.
  rewrite divide_safe_returns.
  destruct a as [sa | sa | | sa ma ea], b as [sb | sb | | sb mb eb];
    try reflexivity.
  cbn [is_zero is_nan is_infinite negb andb orb].
  apply (sign_bit_not_nan _ (xorb sa sb)), ddiv_finite_sign.
Qed.

(** X11. When neither operand is a NaN, the denominator is not a zero and
    the operands are not both infinite, the result carries the exclusive or
    of the operands' signs, also when it underflows to a zero or overflows
    to an infinity.  With a zero denominator the result is positive
    whatever the signs. *)
Theorem divide_safe_sign (a b : double) (sa sb : bool) (w : World) :
  sign_bit a = Some sa -> sign_bit b = Some sb ->
  (is_zero b = false -> is_infinite a && is_infinite b = false ->
   sign_bit (returns (divide_safe a b) w) = Some (xorb sa sb)) /\
  (is_zero b = true ->
   sign_bit (returns (divide_safe a b) w) = Some false).
Proof.
  intros Ha Hb. rewrite divide_safe_returns. split.
  - intros Hz Hinf.
    destruct a as [s1 | s1 | | s1 ma ea], b as [s2 | s2 | | s2 mb eb];
      try discriminate; cbn in Ha, Hb;
      injection Ha as <-; injection Hb as <-;
      try reflexivity.
    cbn [is_zero]. apply ddiv_finite_sign.
  - intros Hz. rewrite Hz. reflexivity.
Qed.

Lemma divide_safe_sign_witness :
  (sign_bit (dopp (lit 1 308)) = Some true /\
   sign_bit (lit 1 (-308)) = Some false /\
   is_zero (lit 1 (-308)) = false /\
   is_infinite (dopp (lit 1 308)) && is_infinite (lit 1 (-308)) = false) /\
  sign_bit (returns (divide_safe (dopp (lit 1 308)) (lit 1 (-308))) (mkWorld ""))
  = Some (xorb true false).
Proof.
  split; [repeat split |].
  exact (proj1 (divide_safe_sign (dopp (lit 1 308)) (lit 1 (-308)) true false
                  (mkWorld "") eq_refl eq_refl) eq_refl eq_refl).
Defined.

(** X12. When the result is not a NaN (the denominator is not a zero,
    neither operand is a NaN and they are not both infinite), negating
    either operand negates the result: [divide_safe(-a, b)] and
    [divide_safe(a, -b)] are both [- divide_safe(a, b)].  Negating an
    operand never changes whether the result is a NaN.  For a zero
    denominator the result is not negated: the fallback stays [+0.0]. *)
Theorem divide_safe_opp (a b : double) (w : World) :
  (is_zero b = false ->
   is_nan a = false -> is_nan b = false ->
   is_infinite a && is_infinite b = false ->
   is_nan (returns (divide_safe a b) w) = false /\
   returns (divide_safe (dopp a) b) w = dopp (returns (divide_safe a b) w) /\
   returns (divide_safe a (dopp b)) w = dopp (returns (divide_safe a b) w)) /\
  (is_nan (returns (divide_safe (dopp a) b) w) =
   is_nan (returns (divide_safe a b) w) /\
   is_nan (returns (divide_safe a (dopp b)) w) =
   is_nan (returns (divide_safe a b) w)) /\
  (is_zero b = true ->
   returns (divide_safe (dopp a) b) w = pos_zero /\
   returns (divide_safe a (dopp b)) w = pos_zero /\
   dopp (returns (divide_safe a b) w) = neg_zero).
Proof.
  rewrite !divide_safe_returns.
  assert (Hopp : is_zero (dopp b) = is_zero b) by (destruct b; reflexivity).
  rewrite Hopp. split; [| split].
  - intros Hz Ha Hb Hinf. rewrite Hz. split; [| split].
    + destruct a as [sa | sa | | sa ma ea], b as [sb | sb | | sb mb eb];
        try discriminate; try reflexivity.
      apply (sign_bit_not_nan _ (xorb sa sb)), ddiv_finite_sign.
    + apply ddiv_opp_l.
    + apply ddiv_opp_r.
  - destruct (is_zero b); [split; reflexivity |].
    rewrite ddiv_opp_l, ddiv_opp_r.
    destruct (ddiv a b); split; reflexivity.
  - intros Hz. rewrite Hz. repeat split.
Qed.

Lemma divide_safe_opp_witness :
  (is_zero (lit 2 0) = false /\
   is_nan (lit 10 0) = false /\ is_nan (lit 2 0) = false /\
   is_infinite (lit 10 0) && is_infinite (lit 2 0) = false) /\
  returns (divide_safe (dopp (lit 10 0)) (lit 2 0)) (mkWorld "") =
  dopp (returns (divide_safe (lit 10 0) (lit 2 0)) (mkWorld "")).
Proof.
  split; [repeat split |].
  exact (proj1 (proj2 (proj1 (divide_safe_opp (lit 10 0) (lit 2 0) (mkWorld ""))
                         eq_refl eq_refl eq_refl eq_refl))).
Defined.

Section SelfDivision.

Lemma div_eucl_mul_pow2 (m : positive) (n : Z) :
  0 <= n -> Z.div_eucl (Z.shiftl (Zpos m) n) (Zpos m) = (2 ^ n, 0).
Proof.
  intros Hn.
  pose proof (Z.div_mul (2 ^ n) (Zpos m) ltac:(lia)) as Hq.
  pose proof (Z.mod_mul (2 ^ n) (Zpos m) ltac:(lia)) as Hr.
  rewrite Z.shiftl_mul_pow2, Z.mul_comm by exact Hn.
  unfold Z.div, Z.modulo in Hq, Hr.
  destruct (Z.div_eucl (2 ^ n * Zpos m) (Zpos m)) as [q r].
  now subst.
Qed.

Lemma new_location_zero (n : Z) : new_location n 0 = loc_Exact.
Proof. unfold new_location. destruct (Z.even n); reflexivity. Qed.

Lemma ddiv_self (s : bool) (m : positive) (e : Z) :
  ddiv (S754_finite s m e) (S754_finite s m e) = lit 1 0.
Proof.
  unfold ddiv, SFdiv, SFdiv_core_binary.
  rewrite !Z.sub_diag, xorb_nilpotent.
  change (Z.min (fexp prec emax 0) 0) with (-53).
  change (0 - -53) with 53.
  cbv iota. rewrite (div_eucl_mul_pow2 m 53) by lia.
  rewrite new_location_zero. reflexivity.
Qed.

End SelfDivision.

Section DivisionByOne.

Lemma div_eucl_mul_exact (q d : positive) :
  Z.div_eucl (Zpos q * Zpos d) (Zpos d) = (Zpos q, 0).
Proof.
  pose proof (Z.div_mul (Zpos q) (Zpos d) ltac:(lia)) as Hq.
  pose proof (Z.mod_mul (Zpos q) (Zpos d) ltac:(lia)) as Hr.
  unfold Z.div, Z.modulo in Hq, Hr.
  destruct (Z.div_eucl (Zpos q * Zpos d) (Zpos d)) as [q' r].
  now subst.
Qed.

(** Rounding a canonical mantissa changes nothing. *)
Lemma binary_round_aux_canonical (s : bool) (m : positive) (e : Z) :
  bounded prec emax m e = true ->
  binary_round_aux prec emax s (Zpos m) e loc_Exact = S754_finite s m e.
Proof.
  unfold bounded, canonical_mantissa. intros Hb.
  apply andb_true_iff in Hb. destruct Hb as [Hc He].
  apply Z.eqb_eq in Hc.
  unfold binary_round_aux, shr_fexp. cbn [Zdigits2 shr_record_of_loc].
  rewrite Hc, Z.sub_diag. cbn [shr shr_m loc_of_shr_record round_nearest_even Zdigits2].
  cbn [shr_record_of_loc]. rewrite Hc, Z.sub_diag. cbn [shr shr_m].
  rewrite He. reflexivity.
Qed.

Lemma ddiv_one (a : double) :
  is_double a = true -> ddiv a (lit 1 0) = a.
Proof.
  destruct a as [s | s | | s m e]; try (destruct s; reflexivity); [reflexivity |].
  intros Hv. cbn in Hv.
  change (lit 1 0) with (S754_finite false 4503599627370496 (-52)).
  unfold ddiv, SFdiv. rewrite xorb_false_r.
  assert (Hb := Hv). unfold bounded, canonical_mantissa in Hb.
  apply andb_true_iff in Hb. destruct Hb as [Hc He].
  apply Z.eqb_eq in Hc. apply Z.leb_le in He.
  unfold fexp, emin, prec, emax in Hc, He.
  unfold SFdiv_core_binary.
  change (Zdigits2 (Zpos 4503599627370496)) with 53.
  cbn [Zdigits2].
  set (D := Zpos (digits2_pos m)) in *.
  assert (HD : 0 < D) by (subst D; lia).
  destruct (Z.eq_dec e (-1074)) as [Hmin | Hnorm].
  - (* subnormal exponent *)
    replace (Z.min (fexp prec emax (D + e - (53 + -52))) (e - -52)) with e
      by (unfold fexp, emin, prec, emax; lia).
    replace (e - -52 - e) with 52 by lia.
    cbv iota. rewrite Z.shiftl_mul_pow2 by lia.
    change (2 ^ 52) with (Zpos 4503599627370496).
    rewrite div_eucl_mul_exact, new_location_zero.
    apply binary_round_aux_canonical, Hv.
  - replace (Z.min (fexp prec emax (D + e - (53 + -52))) (e - -52)) with (e - 1)
      by (unfold fexp, emin, prec, emax; lia).
    replace (e - -52 - (e - 1)) with 53 by lia.
    cbv iota. rewrite Z.shiftl_mul_pow2 by lia.
    change (2 ^ 53) with (2 * Zpos 4503599627370496).
    rewrite Z.mul_assoc, (Z.mul_comm (Zpos m) 2).
    change (2 * Zpos m) with (Zpos m~0).
    rewrite div_eucl_mul_exact, new_location_zero.
    assert (HD53 : D = 53) by lia.
    unfold binary_round_aux, shr_fexp.
    cbn [Zdigits2 digits2_pos shr_record_of_loc].
    rewrite Pos2Z.inj_succ. fold D. rewrite HD53.
    replace (fexp prec emax (Z.succ 53 + (e - 1)) - (e - 1)) with 1
      by (unfold fexp, emin, prec, emax; lia).
    cbn [shr iter_pos shr_1 shr_m loc_of_shr_record round_nearest_even orb].
    cbn [Zdigits2 shr_record_of_loc]. fold D. rewrite HD53.
    replace (fexp prec emax (53 + (e - 1 + 1)) - (e - 1 + 1)) with 0
      by (unfold fexp, emin, prec, emax; lia).
    cbn [shr shr_m].
    replace (e - 1 + 1) with e by lia.
    replace (e <=? emax - prec) with true
      by (symmetry; apply Z.leb_le; unfold emax, prec; lia).
    reflexivity.
Qed.

End DivisionByOne.

(** X13. Dividing a double by itself: a finite one that is not a zero gives
    exactly [1.0], a zero gives the fallback [0.0], and an infinity or a
    NaN gives a NaN. *)
Theorem divide_safe_self (a : double) (w : World) :
  (is_finite a = true -> is_zero a = false ->
   returns (divide_safe a a) w = lit 1 0) /\
  (is_zero a = true -> returns (divide_safe a a) w = pos_zero) /\
  (is_finite a = false -> returns (divide_safe a a) w = S754_nan).
Proof.
  rewrite divide_safe_returns.
  destruct a as [s | s | | s m e]; cbn [is_finite is_zero];
    (split; [| split]); try discriminate; try reflexivity.
  intros _ _. apply ddiv_self.
Qed.

Lemma divide_safe_self_witness :
  (is_finite (lit 1 (-308)) = true /\ is_zero (lit 1 (-308)) = false) /\
  returns (divide_safe (lit 1 (-308)) (lit 1 (-308))) (mkWorld "") = lit 1 0.
Proof.
  split; [split; reflexivity |].
  exact (proj1 (divide_safe_self (lit 1 (-308)) (mkWorld "")) eq_refl eq_refl).
Defined.

(** X14. Dividing by [1.0] changes nothing: for every double [a] that is
    not a NaN (zeros of either sign, subnormal numbers and infinities
    included), [divide_safe(a, 1.0)] returns [a].  For a NaN it returns a
    NaN. *)
Theorem divide_safe_one (a : double) (w : World) :
  (is_double a = true -> is_nan a = false ->
   returns (divide_safe a (lit 1 0)) w = a) /\
  (is_nan a = true ->
   is_nan (returns (divide_safe a (lit 1 0)) w) = true).
Proof.
  rewrite divide_safe_returns.
  change (is_zero (lit 1 0)) with false. cbv iota. split.
  - intros Ha _. apply ddiv_one, Ha.
  - destruct a; try discriminate. reflexivity.
Qed.

Lemma divide_safe_one_witness :
  (is_double (lit 1 (-308)) = true /\ is_nan (lit 1 (-308)) = false) /\
  returns (divide_safe (lit 1 (-308)) (lit 1 0)) (mkWorld "") = lit 1 (-308).
Proof.
  split; [split; reflexivity |].
  exact (proj1 (divide_safe_one (lit 1 (-308)) (mkWorld "")) eq_refl eq_refl).
Defined.

(** ** Rounding gives binary64 values *)
Section ValidFacts.

Lemma digits2_pos_size (p : positive) : digits2_pos p = Pos.size p.
Proof. induction p as [p IH | p IH |]; cbn; now rewrite ?IH. Qed.

Lemma Zdigits2_nonneg (m : Z) : 0 <= Zdigits2 m.
Proof. destruct m; cbn; lia. Qed.

(** A positive [m] has [Zdigits2 m] binary digits. *)
Lemma Zdigits2_bounds (m : Z) :
  0 < m -> 2 ^ (Zdigits2 m - 1) <= m < 2 ^ Zdigits2 m.
Proof.
  destruct m as [| p | p]; try lia. intros _. cbn [Zdigits2].
  rewrite digits2_pos_size.
  pose proof (Pos.size_gt p) as Hgt. pose proof (Pos.size_le p) as Hle.
  apply Pos2Z.pos_lt_pos in Hgt. apply Pos2Z.pos_le_pos in Hle.
  rewrite Pos2Z.inj_pow in Hgt, Hle.
  assert (E : 2 ^ Zpos (Pos.size p) = 2 * 2 ^ (Zpos (Pos.size p) - 1)).
  { rewrite <- Z.pow_succ_r by lia. f_equal. lia. }
  lia.
Qed.

Lemma Zdigits2_lower (m k : Z) : 2 ^ (k - 1) <= m -> 0 < k -> k <= Zdigits2 m.
Proof.
  intros Hm Hk.
  assert (Hpos : 0 < m) by (pose proof (Z.pow_pos_nonneg 2 (k - 1)); lia).
  destruct (Zdigits2_bounds m Hpos) as [_ Hub].
  destruct (Z_lt_le_dec (Zdigits2 m) k) as [Hlt | Hge]; [| exact Hge].
  pose proof (Zdigits2_nonneg m).
  pose proof (Z.pow_le_mono_r 2 (Zdigits2 m) (k - 1)). lia.
Qed.

Lemma Zdigits2_upper (m k : Z) : 0 <= m < 2 ^ k -> 0 <= k -> Zdigits2 m <= k.
Proof.
  intros [Hm Hub] Hk.
  destruct (Z.eq_dec m 0) as [-> | Hnz]; [exact Hk |].
  destruct (Zdigits2_bounds m ltac:(lia)) as [Hlb _].
  destruct (Z_lt_le_dec k (Zdigits2 m)) as [Hlt | Hge]; [| exact Hge].
  pose proof (Z.pow_le_mono_r 2 k (Zdigits2 m - 1)). lia.
Qed.

Lemma Zdigits2_mono (a b : Z) : 0 <= a <= b -> Zdigits2 a <= Zdigits2 b.
Proof.
  intros [Ha Hab].
  destruct (Z.eq_dec a 0) as [-> | Hnz]; [apply Zdigits2_nonneg |].
  destruct (Zdigits2_bounds a ltac:(lia)) as [Hlb _].
  apply Zdigits2_lower; [lia |].
  destruct a; cbn; lia.
Qed.

Lemma shr_m_shr_1 (mrs : shr_record) :
  0 <= shr_m mrs -> shr_m (shr_1 mrs) = shr_m mrs / 2.
Proof.
  intros Hm. rewrite <- Z.div2_div.
  destruct mrs as [m r s]. cbn in *.
  destruct m as [| [p | p |] | p]; try reflexivity; lia.
Qed.

Lemma shr_m_iter (p : positive) :
  forall mrs, 0 <= shr_m mrs ->
  shr_m (iter_pos shr_1 p mrs) = shr_m mrs / 2 ^ Zpos p.
Proof.
  induction p as [p IH | p IH |]; intros mrs Hm; cbn [iter_pos].
  - rewrite IH, IH, shr_m_shr_1 by
      (try apply iter_shr_1_nonneg; try apply shr_1_nonneg; exact Hm).
    rewrite !Z.div_div by (try apply Z.pow_pos_nonneg; lia).
    f_equal. rewrite Pos2Z.inj_xI.
    replace (2 * Zpos p + 1) with (1 + Zpos p + Zpos p) by lia.
    rewrite !Z.pow_add_r by lia. change (2 ^ 1) with 2. ring.
  - rewrite IH, IH by (try apply iter_shr_1_nonneg; exact Hm).
    rewrite !Z.div_div by (try apply Z.pow_pos_nonneg; lia).
    f_equal. rewrite <- Z.pow_add_r by lia. f_equal. lia.
  - rewrite shr_m_shr_1 by exact Hm. reflexivity.
Qed.

Lemma shr_fexp_aligned (m e : Z) (l : location) :
  0 <= m -> e <= fexp prec emax (Zdigits2 m + e) ->
  aligned (shr_m (fst (shr_fexp prec emax m e l)))
          (snd (shr_fexp prec emax m e l)).
Proof.
  intros Hm Hp. unfold shr_fexp.
  remember (fexp prec emax (Zdigits2 m + e) - e) as n eqn:En.
  assert (Hn : 0 <= n) by lia.
  assert (Hrec : shr_m (shr_record_of_loc m l) = m) by (destruct l as [| []]; reflexivity).
  pose proof (Zdigits2_nonneg m) as Hd.
  destruct n as [| p | p]; [| | lia]; cbn [shr fst snd].
  - rewrite Hrec. unfold aligned.
    destruct (Z.eq_dec m 0) as [-> | Hnz].
    + left. split; [reflexivity |]. cbn [Zdigits2] in *.
      unfold fexp, emin, prec, emax in *. lia.
    + right. split; lia.
  - rewrite shr_m_iter, Hrec by (rewrite Hrec; exact Hm).
    destruct (Z.eq_dec m 0) as [-> | Hnz].
    + left. split; [apply Z.div_0_l; pose proof (Z.pow_pos_nonneg 2 (Zpos p)); lia |].
      cbn [Zdigits2] in *. unfold fexp, emin, prec, emax in *. lia.
    + destruct (Zdigits2_bounds m ltac:(lia)) as [Hlb Hub].
      set (d := Zdigits2 m) in *.
      assert (Hpow : 0 < 2 ^ Zpos p) by (apply Z.pow_pos_nonneg; lia).
      destruct (Z_le_gt_dec d (Zpos p)) as [Hsmall | Hbig].
      * left. split.
        -- apply Z.div_small. split; [lia |].
           pose proof (Z.pow_le_mono_r 2 d (Zpos p)). lia.
        -- unfold fexp, emin, prec, emax in *. lia.
      * right.
        assert (Hq1 : 2 ^ (d - Zpos p - 1) <= m / 2 ^ Zpos p).
        { apply Z.div_le_lower_bound; [exact Hpow |].
          rewrite <- Z.pow_add_r by lia.
          replace (Zpos p + (d - Zpos p - 1)) with (d - 1) by lia. exact Hlb. }
        assert (Hq2 : m / 2 ^ Zpos p < 2 ^ (d - Zpos p)).
        { apply Z.div_lt_upper_bound; [exact Hpow |].
          rewrite <- Z.pow_add_r by lia.
          replace (Zpos p + (d - Zpos p)) with d by lia. exact Hub. }
        assert (Hdq : Zdigits2 (m / 2 ^ Zpos p) = d - Zpos p).
        { apply Z.le_antisymm.
          - apply Zdigits2_upper; [| lia].
            split; [apply Z.div_pos; lia | exact Hq2].
          - apply Zdigits2_lower; [exact Hq1 | lia]. }
        split.
        -- pose proof (Z.pow_pos_nonneg 2 (d - Zpos p - 1)). lia.
        -- rewrite Hdq. replace (d - Zpos p + (e + Zpos p)) with (d + e) by lia.
           lia.
Qed.

Lemma round_nearest_even_cases (m : Z) (l : location) :
  round_nearest_even m l = m \/ round_nearest_even m l = m + 1.
Proof.
  destruct l as [| []]; cbn; auto. destruct (Z.even m); auto.
Qed.

(** Rounding keeps the precondition of the alignment step. *)
Lemma aligned_round (m e : Z) (l : location) :
  aligned m e ->
  e <= fexp prec emax (Zdigits2 (round_nearest_even m l) + e).
Proof.
  intros [[-> ->] | [Hm Hc]].
  - unfold fexp. lia.
  - assert (Hmono : Zdigits2 m <= Zdigits2 (round_nearest_even m l)).
    { apply Zdigits2_mono.
      destruct (round_nearest_even_cases m l) as [-> | ->]; lia. }
    unfold fexp in *. lia.
Qed.

(** Whatever is rounded, provided it carries enough digits, the result is
    a binary64 value. *)
Lemma binary_round_aux_valid (s : bool) (m e : Z) (l : location) :
  0 <= m -> e <= fexp prec emax (Zdigits2 m + e) ->
  valid_binary prec emax (binary_round_aux prec emax s m e l) = true.
Proof.
  intros Hm Hp. unfold binary_round_aux.
  pose proof (shr_fexp_aligned m e l Hm Hp) as H1.
  pose proof (shr_fexp_nonneg m e l Hm) as N1.
  destruct (shr_fexp prec emax m e l) as [mrs' e']. cbn [fst snd] in H1, N1.
  pose proof (round_nearest_even_nonneg _ (loc_of_shr_record mrs') N1) as N2.
  pose proof (shr_fexp_aligned _ e' loc_Exact N2
                (aligned_round _ _ (loc_of_shr_record mrs') H1)) as H2.
  destruct (shr_fexp prec emax _ e' loc_Exact) as [mrs'' e'']. cbn [fst snd] in H2.
  destruct (shr_m mrs'') as [| p | p] eqn:E3; [reflexivity | | reflexivity].
  destruct (e'' <=? emax - prec) eqn:Ee; [| reflexivity].
  cbn [valid_binary]. unfold bounded, canonical_mantissa.
  rewrite Ee, andb_true_r. apply Z.eqb_eq.
  destruct H2 as [[H0 _] | [_ Hc]]; [discriminate | exact Hc].
Qed.

(** The quotient computed by the division core carries enough digits. *)
Lemma SFdiv_core_binary_digits (mx my : positive) (ex ey : Z) :
  let '(q, e', _) := SFdiv_core_binary prec emax (Zpos mx) ex (Zpos my) ey in
  0 <= q /\ e' <= fexp prec emax (Zdigits2 q + e').
Proof.
  pose proof (SFdiv_core_binary_nonneg mx my ex ey) as Hq0.
  unfold SFdiv_core_binary in *.
  set (d1 := Zdigits2 (Zpos mx)) in *. set (d2 := Zdigits2 (Zpos my)) in *.
  set (e' := Z.min (fexp prec emax (d1 + ex - (d2 + ey))) (ex - ey)) in *.
  set (s := ex - ey - e') in *.
  assert (Hs : 0 <= s) by (subst s e'; lia).
  set (m' := match s with Z0 => Zpos mx | Zpos _ => Z.shiftl (Zpos mx) s | Zneg _ => 0 end) in *.
  assert (Hm' : m' = Zpos mx * 2 ^ s).
  { subst m'. destruct s as [| p | p] eqn:Es; [cbn; lia | | lia].
    apply Z.shiftl_mul_pow2. lia. }
  destruct (Zdigits2_bounds (Zpos mx) eq_refl) as [Hx1 _].
  destruct (Zdigits2_bounds (Zpos my) eq_refl) as [_ Hy2].
  fold d1 in Hx1. fold d2 in Hy2.
  assert (Hd1 : 0 < d1) by (subst d1; cbn; lia).
  assert (Hd2 : 0 < d2) by (subst d2; cbn; lia).
  assert (Hdig : d1 + s - d2 <= Zdigits2 (m' / Zpos my)).
  { destruct (Z_le_gt_dec (d1 + s - d2) 0) as [Hle | Hgt].
    - pose proof (Zdigits2_nonneg (m' / Zpos my)). lia.
    - apply Zdigits2_lower; [| lia].
      apply Z.div_le_lower_bound; [lia |].
      assert (Hlt : Zpos my * 2 ^ (d1 + s - d2 - 1) <= 2 ^ d2 * 2 ^ (d1 + s - d2 - 1)).
      { apply Z.mul_le_mono_nonneg_r; [apply Z.pow_nonneg |]; lia. }
      rewrite <- Z.pow_add_r in Hlt by lia.
      replace (d2 + (d1 + s - d2 - 1)) with ((d1 - 1) + s) in Hlt by lia.
      rewrite Z.pow_add_r in Hlt by lia.
      assert (Hge : 2 ^ (d1 - 1) * 2 ^ s <= Zpos mx * 2 ^ s).
      { apply Z.mul_le_mono_nonneg_r; [apply Z.pow_nonneg; lia | exact Hx1]. }
      lia. }
  unfold Z.div in Hdig.
  destruct (Z.div_eucl m' (Zpos my)) as [q r]. cbn [fst] in Hq0.
  split; [exact Hq0 |].
  unfold fexp in *. subst s. lia.
Qed.

(** The quotient of two finite doubles is a binary64 value. *)
Lemma ddiv_finite_valid (sx sy : bool) (mx my : positive) (ex ey : Z) :
  is_double (ddiv (S754_finite sx mx ex) (S754_finite sy my ey)) = true.
Proof.
  unfold is_double, ddiv, SFdiv.
  pose proof (SFdiv_core_binary_digits mx my ex ey) as H.
  destruct (SFdiv_core_binary prec emax (Zpos mx) ex (Zpos my) ey) as [[q e'] lz].
  destruct H as [Hq Hp]. apply binary_round_aux_valid; assumption.
Qed.

End ValidFacts.

(** X15. Whatever its arguments, [divide_safe] returns a binary64 value: a
    zero, an infinity, a NaN, or a finite number whose mantissa and exponent
    are the canonical ones, with the exponent within range. *)
Theorem divide_safe_is_double (a b : double) (w : World) :
  is_double (returns (divide_safe a b) w) = true.
Proof.
  rewrite divide_safe_returns.
  destruct b as [sb | sb | | sb mb eb]; cbn [is_zero]; try reflexivity;
    destruct a as [sa | sa | | sa ma ea]; try reflexivity.
  apply ddiv_finite_valid.
Qed.
